(** * Test-support utilities of optimum: [flatten_dict] and [grid_parameters]

    A shallow embedding of [optimum/utils/testing_utils.py].  Python
    dictionaries keep insertion order, so they are association lists with
    the assignment [d[k] = v] written out; the generator returned by
    [grid_parameters] is a finite lazy sequence that ends either normally
    or by raising. *)

From stdpp Require Import base decidable option list strings pretty.

(** ** Python dictionaries (insertion-ordered) *)

Module PyDict.
Section dict.
Context {K V : Type} `{EqDecision K}.

Definition dict := list (K * V).

Definition keys (d : dict) : list K := d.*1.
Definition values (d : dict) : list V := d.*2.

(** [d[key]] as a lookup; [None] where Python raises [KeyError]. *)
Fixpoint get (d : dict) (key : K) : option V :=
  match d with
  | [] => None
  | (k, v) :: d' => if decide (key = k) then Some v else get d' key
  end.

(** [d[key] = v]: an existing key keeps its place and takes the new
    value, a new key goes last. *)
Fixpoint set (d : dict) (key : K) (v : V) : dict :=
  match d with
  | [] => [(key, v)]
  | (k, w) :: d' =>
      if decide (key = k) then (k, v) :: d' else (k, w) :: set d' key v
  end.

(** [dict(items)]: the pairs are assigned from left to right. *)
Definition of_items (items : list (K * V)) : dict :=
  foldl (λ d kv, set d kv.1 kv.2) [] items.
End dict.
Global Arguments dict : clear implicits.
End PyDict.

(** ** Values that can be named *)

(** What [grid_parameters] needs of a parameter value: [str(param)], and
    that a [str] object is itself a value (the test name is stored next to
    the parameters). *)
Class PyValue (V : Type) := {
  py_str : V → string;
  str_obj : string → V
}.

(** A closed set of primitive kinds, enough for the examples. *)
Inductive value :=
  | VNone
  | VBool (b : bool)
  | VInt (n : Z)
  | VStr (s : string).

Definition value_str (v : value) : string :=
  match v with
  | VNone => "None"
  | VBool true => "True"
  | VBool false => "False"
  | VInt n => pretty n
  | VStr s => s
  end.

#[global] Instance value_eq_dec : EqDecision value.
Proof. solve_decision. Defined.

#[global] Instance value_py : PyValue value :=
  {| py_str := value_str; str_obj := VStr |}.

(** [sep.join(parts)] *)
Fixpoint str_join (sep : string) (parts : list string) : string :=
  match parts with
  | [] => ""
  | [s] => s
  | s :: rest => s +:+ sep +:+ str_join sep rest
  end.

(** ** Generators *)

Inductive exn := IndexError.

(** A generator run to its end: the items it yields, then [StopIteration]
    ([Stop]) or an exception. *)
Inductive gen (A : Type) :=
  | Stop
  | Yield (a : A) (rest : gen A)
  | Raise (e : exn).
Global Arguments Stop {A}.
Global Arguments Yield {A} a rest.
Global Arguments Raise {A} e.

Fixpoint emitted {A} (g : gen A) : list A :=
  match g with
  | Yield a rest => a :: emitted rest
  | _ => []
  end.

Fixpoint raised {A} (g : gen A) : option exn :=
  match g with
  | Stop => None
  | Yield _ rest => raised rest
  | Raise e => Some e
  end.

(** ** [itertools.product] *)

(** As the Python documentation gives it: [result = [[]]], then for each
    pool [result = [x + [y] for x in result for y in pool]]. *)
Definition product_step {A} (result : list (list A)) (pool : list A)
  : list (list A) :=
  x ← result; (λ y, x ++ [y]) <$> pool.

Definition itertools_product {A} (pools : list (list A)) : list (list A) :=
  foldl product_step [[]] pools.

(** ** [grid_parameters] *)

Module Grid.
Import PyDict.
Section grid.
Context {V : Type} `{PyValue V}.

Inductive item :=
  | ItemDict (res_dict : dict string V)
  | ItemList (returned_list : list V).

Definition test_name_of (params : list V) : string :=
  str_join "_" (py_str <$> params).

(** [for i, key in enumerate(parameters.keys()): res_dict[key] = params[i]],
    from counter [i] on; [params[i]] raises past the end. *)
Fixpoint fill_res_dict (i : nat) (keys : list string) (params : list V)
    (res_dict : dict string V) : exn + dict string V :=
  match keys with
  | [] => inr res_dict
  | key :: keys' =>
      match params !! i with
      | Some v => fill_res_dict (S i) keys' params (set res_dict key v)
      | None => inl IndexError
      end
  end.

(** The loop of [grid_parameters] over the combinations still to come. *)
Fixpoint grid_loop (parameters : dict string (list V))
    (yield_dict add_test_name : bool)
    (filter_params_func : option (list V → option (list V)))
    (combinations : list (list V)) : gen item :=
  match combinations with
  | [] => Stop
  | params :: rest =>
      let continue :=
        grid_loop parameters yield_dict add_test_name filter_params_func rest in
      let filtered :=
        match filter_params_func with
        | Some f => f params
        | None => Some params
        end in
      match filtered with
      | None => continue
      | Some params =>
          let test_name := test_name_of params in
          if yield_dict then
            match fill_res_dict 0 (keys parameters) params [] with
            | inl e => Raise e
            | inr res_dict =>
                let res_dict :=
                  if add_test_name
                  then set res_dict "test_name" (str_obj test_name)
                  else res_dict in
                Yield (ItemDict res_dict) continue
            end
          else
            let returned_list :=
              if add_test_name then str_obj test_name :: params else params in
            Yield (ItemList returned_list) continue
      end
  end.

Definition grid_parameters (parameters : dict string (list V))
    (yield_dict add_test_name : bool)
    (filter_params_func : option (list V → option (list V))) : gen item :=
  grid_loop parameters yield_dict add_test_name filter_params_func
    (itertools_product (values parameters)).
End grid.
Global Arguments item : clear implicits.
End Grid.

(** ** [flatten_dict] *)

Module Flatten.
Import PyDict.
Section flatten.
Context {K L : Type} `{EqDecision K}.

(** A nested dictionary: every entry holds either a value that is not a
    [MutableMapping] or another nested dictionary. *)
Unset Elimination Schemes.
Inductive nested :=
  | Nested (entries : list (K * node))
with node :=
  | Leaf (x : L)
  | Mapping (d : nested).
Set Elimination Schemes.

Fixpoint flatten_dict (dictionary : nested) : dict K L :=
  let '(Nested entries) := dictionary in
  of_items
    ((fix items (entries : list (K * node)) : list (K * L) :=
        match entries with
        | [] => []
        | (k, v) :: rest =>
            let new_key := k in
            match v with
            | Mapping v => flatten_dict v ++ items rest
            | Leaf v => (new_key, v) :: items rest
            end
        end) entries).

(** The list [items] that the loop of [flatten_dict] builds from the
    entries. *)
Definition flatten_items (entries : list (K * node)) : list (K * L) :=
  flat_map (λ kv, match kv.2 with
                  | Mapping v => flatten_dict v
                  | Leaf v => [(kv.1, v)]
                  end) entries.

(** The pairs of a key and a value that is not a mapping, at any depth,
    in iteration order. *)
Fixpoint leaves (dictionary : nested) : list (K * L) :=
  let '(Nested entries) := dictionary in
  (fix go (entries : list (K * node)) : list (K * L) :=
     match entries with
     | [] => []
     | (k, Mapping v) :: rest => leaves v ++ go rest
     | (k, Leaf v) :: rest => (k, v) :: go rest
     end) entries.

(** [leaf_at d k x]: somewhere in [d], at any depth, key [k] holds the
    value [x], which is not a mapping. *)
Inductive leaf_at : nested → K → L → Prop :=
  | leaf_here entries k x :
      (k, Leaf x) ∈ entries → leaf_at (Nested entries) k x
  | leaf_below entries parent sub k x :
      (parent, Mapping sub) ∈ entries → leaf_at sub k x →
      leaf_at (Nested entries) k x.

(** The value of the last pair with key [k]. *)
Fixpoint last_value (k : K) (items : list (K * L)) : option L :=
  match items with
  | [] => None
  | (k', v) :: rest =>
      match last_value k rest with
      | Some w => Some w
      | None => if decide (k = k') then Some v else None
      end
  end.
End flatten.
Global Arguments nested : clear implicits.
Global Arguments node : clear implicits.
End Flatten.

Import PyDict Grid Flatten.

(** ** What the statements below speak of *)

Section statements.
Context {V : Type} `{PyValue V}.
Implicit Types (parameters : dict string (list V)).
Implicit Types (filter_params_func : option (list V → option (list V))).

(** The combinations that pass the filter, as the filter returns them. *)
Definition surviving filter_params_func (combinations : list (list V))
  : list (list V) :=
  omap (λ params, match filter_params_func with
                  | Some f => f params
                  | None => Some params
                  end) combinations.

Definition sizes parameters : list nat := length <$> values parameters.

(** Every emitted mapping holds, under every parameter key, the value in
    that key's slot of its combination. *)
Definition dict_holds_slots parameters (add_test_name : bool)
    filter_params_func : Prop :=
  ∀ i it,
    emitted (grid_parameters parameters true add_test_name
               filter_params_func) !! i = Some it →
    ∃ params res_dict,
      surviving filter_params_func
        (itertools_product (values parameters)) !! i = Some params ∧
      it = ItemDict res_dict ∧
      ∀ j key, keys parameters !! j = Some key →
        ∃ v, params !! j = Some v ∧ get res_dict key = Some v.

(** An item emitted with [add_test_name=True] is the item emitted with
    [add_test_name=False] plus one entry, the name. *)
Definition with_name (name : V) (plain named : item V) : Prop :=
  match plain with
  | ItemList l => named = ItemList (name :: l)
  | ItemDict d =>
      get d "test_name" = None ∧ named = ItemDict (d ++ [("test_name", name)])
  end.

Definition adds_one_entry parameters (yield_dict : bool)
    filter_params_func : Prop :=
  let plain :=
    grid_parameters parameters yield_dict false filter_params_func in
  let named :=
    grid_parameters parameters yield_dict true filter_params_func in
  raised named = raised plain ∧
  length (emitted named) = length (emitted plain) ∧
  ∀ i it, emitted plain !! i = Some it →
    ∃ params it',
      surviving filter_params_func
        (itertools_product (values parameters)) !! i = Some params ∧
      emitted named !! i = Some it' ∧
      with_name (str_obj (test_name_of params)) it it'.
End statements.

(** The grid of the specification's example. *)
Definition ab_space : dict string (list value) :=
  [("a", [VInt 1; VInt 2]); ("b", [VStr "x"; VStr "y"])].

(** A parameter that is itself called [test_name]. *)
Definition name_space : dict string (list value) :=
  [("test_name", [VInt 1])].

(** A grid with a parameter that has no value to take. *)
Definition hollow_space : dict string (list value) :=
  [("a", [VInt 1; VInt 2]); ("b", [])].

(** A filter that lets pairs through as they are and drops the rest. *)
Definition keep_pairs (params : list value) : option (list value) :=
  if decide (length params = 2) then Some params else None.

(** [{"a": {"b": 1, "c": {"b": 2}}, "b": 3, "d": 4}] *)
Definition nested_example : nested string Z :=
  Nested [("a", Mapping (Nested [("b", Leaf 1%Z);
                                 ("c", Mapping (Nested [("b", Leaf 2%Z)]))]));
          ("b", Leaf 3%Z);
          ("d", Leaf 4%Z)].

(** A filter that hands back one value too few for the pair [(2, "x")]. *)
Definition cut_2x (params : list value) : option (list value) :=
  if decide (params = [VInt 2; VStr "x"]) then Some [VInt 2] else Some params.

(** [{"a": {"b": 1, "c": {"d": 2}}, "e": 3}]: no key of a value that is
    not a mapping occurs twice. *)
Definition nested_distinct : nested string Z :=
  Nested [("a", Mapping (Nested [("b", Leaf 1%Z);
                                 ("c", Mapping (Nested [("d", Leaf 2%Z)]))]));
          ("e", Leaf 3%Z)].

(** [{"b": 3, "d": 4}] *)
Definition flat_example : dict string Z := [("b", 3%Z); ("d", 4%Z)].

(** A flat dictionary as a nested one: no value is a mapping. *)
Definition flat {K L} (d : dict K L) : nested K L :=
  Nested (prod_map id Leaf <$> d).

(** ** [is_ort_training_available] and [require_ort_training] *)

Module OrtTraining.

(** How a call ends that does not return: the [UnboundLocalError] of the
    function itself, or an exception of [importlib.util.find_spec] or of
    [subprocess.run] that the function does not catch, by its class name. *)
Inductive exn :=
  | UnboundLocalError
  | FindSpecRaised (exception : string)
  | RunRaised (exception : string).

(** [importlib.util.find_spec(name)] returns a spec or [None], or raises:
    for a dotted name it imports the parent package first, and that raises
    [ModuleNotFoundError] when the parent is not installed. *)
Inductive lookup :=
  | Returns (is_not_None : bool)
  | LookupRaises (exception : string).

(** [subprocess.run(args, shell=False, check=True)] returns when the
    command exits with status zero, raises [CalledProcessError] when it
    exits with another status, and raises something else when the command
    cannot be run at all. *)
Inductive run_outcome :=
  | Completed
  | CalledProcessError
  | RunRaises (exception : string).

(** What the function asks of its surroundings. *)
Record world := {
  find_spec : string → lookup;
  sys_executable : string;
  subprocess_run : list string → run_outcome
}.

(** The calls of [subprocess.run] made, and how the function ends.  The
    local variable [is_torch_ort_configured] is bound only inside the [if];
    [a and b] evaluates [b] only when [a] is true. *)
Definition is_ort_training_available (w : world)
  : list (list string) * (exn + bool) :=
  match find_spec w "onnxruntime.training" with
  | LookupRaises e => ([], inl (FindSpecRaised e))
  | Returns is_ort_train_available =>
      match find_spec w "torch_ort" with
      | LookupRaises e => ([], inl (FindSpecRaised e))
      | Returns true =>
          let args := [sys_executable w; "-m"; "torch_ort.configure"] in
          match subprocess_run w args with
          | Completed =>
              let is_torch_ort_configured := true in
              ([args], inr (is_ort_train_available && is_torch_ort_configured))
          | CalledProcessError =>
              let is_torch_ort_configured := false in
              ([args], inr (is_ort_train_available && is_torch_ort_configured))
          | RunRaises e => ([args], inl (RunRaised e))
          end
      | Returns false =>
          ([], if is_ort_train_available then inl UnboundLocalError
               else inr false)
      end
  end.

(** A test case after [unittest.skipUnless(condition, reason)]: itself, or
    marked to be skipped. *)
Inductive decorated (T : Type) :=
  | Kept (test_case : T)
  | Skipped (reason : string) (test_case : T).
Global Arguments Kept {T} test_case.
Global Arguments Skipped {T} reason test_case.

Definition skipUnless {T} (condition : bool) (reason : string) (test_case : T)
  : decorated T :=
  if condition then Kept test_case else Skipped reason test_case.

Definition require_ort_training {T} (w : world) (test_case : T)
  : list (list string) * (exn + decorated T) :=
  let '(calls, available) := is_ort_training_available w in
  (calls,
   match available with
   | inl e => inl e
   | inr condition =>
       inr (skipUnless condition
              "test requires torch_ort correctly installed and configured"
              test_case)
   end).

(** A machine with onnxruntime-training and without torch_ort. *)
Definition training_only : world :=
  {| find_spec name := Returns (bool_decide (name = "onnxruntime.training"));
     sys_executable := "python";
     subprocess_run _ := Completed |}.

(** A machine with torch_ort and without the onnxruntime package. *)
Definition torch_ort_only : world :=
  {| find_spec name :=
       if bool_decide (name = "onnxruntime.training")
       then LookupRaises "ModuleNotFoundError"
       else Returns (bool_decide (name = "torch_ort"));
     sys_executable := "python";
     subprocess_run _ := Completed |}.
End OrtTraining.

(** ** Facts about dictionaries *)

Section dict_facts.
Context {K V : Type} `{EqDecision K}.
Implicit Types (d : dict K V) (k key : K) (v : V).

Lemma get_set d key v k :
  get (set d key v) k = if decide (k = key) then Some v else get d k.
Proof.
  induction d as [|[k0 w] d IH]; simpl.
  - done.
  - destruct (decide (key = k0)) as [->|Hne]; simpl.
    + by destruct (decide (k = k0)).
    + rewrite IH. destruct (decide (k = k0)) as [->|]; [|done].
      by rewrite decide_False by done.
Qed.

Lemma get_None d k : get d k = None ↔ k ∉ keys d.
Proof.
  unfold keys. induction d as [|[k0 w] d IH]; simpl.
  - split; [intros _; apply not_elem_of_nil | done].
  - rewrite not_elem_of_cons.
    destruct (decide (k = k0)) as [->|Hne].
    + split; [done | by intros [? _]].
    + rewrite IH. split; [by split | by intros [_ ?]].
Qed.

Lemma get_is_Some d k : is_Some (get d k) ↔ k ∈ keys d.
Proof.
  rewrite <-not_eq_None_Some, get_None.
  split; [apply dec_stable | auto].
Qed.

(** Assigning to a key the dictionary does not have appends the pair. *)
Lemma set_fresh d key v : key ∉ keys d → set d key v = d ++ [(key, v)].
Proof.
  unfold keys. induction d as [|[k0 w] d IH]; simpl; [done|].
  rewrite not_elem_of_cons. intros [Hne Hnin].
  destruct (decide (key = k0)); [done|]. by rewrite IH.
Qed.

(** Assigning to a key the dictionary has leaves the keys as they are. *)
Lemma keys_set_present d key v : key ∈ keys d → keys (set d key v) = keys d.
Proof.
  unfold keys. induction d as [|[k0 w] d IH]; simpl.
  - by intros ?%not_elem_of_nil.
  - intros Hin. destruct (decide (key = k0)) as [->|Hne]; simpl; [done|].
    apply elem_of_cons in Hin as [?|Hin]; [done|]. f_equal. by apply IH.
Qed.

Lemma NoDup_keys_set d key v : NoDup (keys d) → NoDup (keys (set d key v)).
Proof.
  intros Hd. destruct (decide (key ∈ keys d)) as [Hin|Hnin].
  - by rewrite keys_set_present.
  - rewrite set_fresh by done. unfold keys in *. rewrite fmap_app. simpl.
    apply NoDup_app. split_and!; [done| |apply NoDup_singleton].
    by intros k Hk ->%list_elem_of_singleton.
Qed.

Lemma NoDup_keys_of_items (items : list (K * V)) : NoDup (keys (of_items items)).
Proof.
  unfold of_items.
  assert (∀ d, NoDup (keys d) →
    NoDup (keys (foldl (λ d kv, set d kv.1 kv.2) d items))) as Hgen.
  { induction items as [|[k v] items IH]; intros d Hd; simpl; [done|].
    apply IH. by apply NoDup_keys_set. }
  apply Hgen. constructor.
Qed.
End dict_facts.

(** ** Facts about [itertools.product] *)

Section product_facts.
Context {A : Type}.
Implicit Types (pool : list A) (pools result : list (list A)) (c : list A).

Lemma length_product_step result pool :
  length (product_step result pool) = length result * length pool.
Proof.
  unfold product_step. induction result as [|x result IH]; csimpl; [done|].
  rewrite length_app, length_fmap, IH. lia.
Qed.

Lemma length_foldl_product pools : ∀ result,
  length (foldl product_step result pools) =
  length result * foldr Nat.mul 1 (length <$> pools).
Proof.
  induction pools as [|pool pools IH]; intros result; csimpl; [lia|].
  rewrite IH, length_product_step. lia.
Qed.

Lemma length_itertools_product pools :
  length (itertools_product pools) = foldr Nat.mul 1 (length <$> pools).
Proof.
  unfold itertools_product. rewrite length_foldl_product. simpl. lia.
Qed.

Lemma elem_of_product_step result pool c :
  c ∈ product_step result pool ↔ ∃ x y, c = x ++ [y] ∧ x ∈ result ∧ y ∈ pool.
Proof.
  unfold product_step. rewrite list_elem_of_bind. split.
  - intros (x & (y & -> & Hy)%list_elem_of_fmap & Hx). eauto.
  - intros (x & y & -> & Hx & Hy). exists x. split; [|done].
    apply list_elem_of_fmap. eauto.
Qed.

Lemma elem_of_foldl_product pools : ∀ result c,
  c ∈ foldl product_step result pools ↔
  ∃ x ys, c = x ++ ys ∧ x ∈ result ∧ Forall2 (λ y pool, y ∈ pool) ys pools.
Proof.
  induction pools as [|pool pools IH]; intros result c; simpl.
  - split.
    + intros Hc. exists c, []. by rewrite app_nil_r.
    + intros (x & ys & -> & Hx & ->%Forall2_nil_inv_r). by rewrite app_nil_r.
  - rewrite IH. split.
    + intros (x' & ys & -> & Hx' & Hys).
      apply elem_of_product_step in Hx' as (x & y & -> & Hx & Hy).
      exists x, (y :: ys). rewrite <-app_assoc. split_and!; [done..|].
      by constructor.
    + intros (x & ys & -> & Hx & Hys).
      apply Forall2_cons_inv_r in Hys as (y & ys' & Hy & Hys' & ->).
      exists (x ++ [y]), ys'. rewrite <-app_assoc. split_and!; [done| |done].
      apply elem_of_product_step. eauto.
Qed.

(** The combinations are exactly the sequences that take, position by
    position, a value of the pool at that position. *)
Lemma elem_of_itertools_product pools c :
  c ∈ itertools_product pools ↔ Forall2 (λ y pool, y ∈ pool) c pools.
Proof.
  unfold itertools_product. rewrite elem_of_foldl_product. split.
  - by intros (x & ys & -> & ->%list_elem_of_singleton & Hys).
  - intros Hc. exists [], c. split_and!; [done| |done]. by left.
Qed.

Lemma itertools_product_empty_pool pools :
  [] ∈ pools → itertools_product pools = [].
Proof.
  intros [i Hi]%list_elem_of_lookup. apply elem_of_nil_inv. intros c Hc.
  apply elem_of_itertools_product in Hc.
  destruct (Forall2_lookup_r _ _ _ _ _ Hc Hi) as (y & _ & Hy).
  by apply elem_of_nil in Hy.
Qed.

Lemma sizes_product_pos (ns : list nat) :
  0 ∉ ns → 0 < foldr Nat.mul 1 ns.
Proof.
  induction ns as [|n ns IH]; simpl; [lia|].
  rewrite not_elem_of_cons. intros [Hn Hns]. specialize (IH Hns). nia.
Qed.

Lemma itertools_product_nonempty pools :
  [] ∉ pools → ∃ c rest, itertools_product pools = c :: rest.
Proof.
  intros Hpools.
  assert (0 < length (itertools_product pools)) as Hlen.
  { rewrite length_itertools_product. apply sizes_product_pos.
    intros (pool & Hz & Hpool)%list_elem_of_fmap.
    symmetry in Hz. apply nil_length_inv in Hz. by subst. }
  destruct (itertools_product pools) as [|c rest]; [simpl in Hlen; lia|].
  eauto.
Qed.
End product_facts.

(** ** Facts about the loop of [grid_parameters] *)

Section grid_facts.
Context {V : Type} `{PyValue V}.
Implicit Types (parameters : dict string (list V)).
Implicit Types (params : list V) (combinations : list (list V)).
Implicit Types (res_dict acc : dict string V).

(** Filtering first and looping without a filter afterwards is the same
    as looping with the filter. *)
Lemma grid_loop_surviving parameters yd atn filter_params_func combinations :
  grid_loop parameters yd atn filter_params_func combinations =
  grid_loop parameters yd atn None (surviving filter_params_func combinations).
Proof.
  induction combinations as [|c cs IH]; [done|].
  cbn [grid_loop surviving omap list_omap].
  destruct filter_params_func as [f|].
  - destruct (f c) as [c'|]; [|exact IH].
    cbn [grid_loop]. fold (surviving (Some f) cs). by rewrite <-IH.
  - cbn [grid_loop]. fold (surviving (@None (list V → option (list V))) cs).
    by rewrite <-IH.
Qed.

Lemma surviving_None combinations : surviving None combinations = combinations.
Proof.
  unfold surviving. induction combinations as [|c cs IH]; csimpl; [done|].
  by rewrite IH.
Qed.

(** *** Filling [res_dict] *)

Lemma fill_res_dict_long ks : ∀ i params acc,
  i + length ks ≤ length params →
  ∃ res_dict, fill_res_dict i ks params acc = inr res_dict.
Proof.
  induction ks as [|key ks IH]; intros i params acc Hlen; simpl in *.
  - eauto.
  - destruct (lookup_lt_is_Some_2 params i) as [v ->]; [lia|].
    apply IH. lia.
Qed.

(** Only parameter keys are assigned. *)
Lemma fill_res_dict_other ks : ∀ i params acc res_dict k,
  fill_res_dict i ks params acc = inr res_dict →
  k ∉ ks → get res_dict k = get acc k.
Proof.
  induction ks as [|key ks IH]; intros i params acc res_dict k Hfill Hk;
    simpl in Hfill.
  - by injection Hfill as <-.
  - destruct (params !! i) as [v|]; [|done].
    apply not_elem_of_cons in Hk as [Hne Hk].
    rewrite (IH _ _ _ _ _ Hfill Hk), get_set. by rewrite decide_False.
Qed.

(** The key at position [j] gets the value at position [j], counted from
    where the enumeration is. *)
Lemma fill_res_dict_slots ks : ∀ i params acc res_dict,
  fill_res_dict i ks params acc = inr res_dict →
  NoDup ks →
  ∀ j key, ks !! j = Some key →
    ∃ v, params !! (i + j) = Some v ∧ get res_dict key = Some v.
Proof.
  induction ks as [|key ks IH]; intros i params acc res_dict Hfill Hnd;
    simpl in Hfill.
  - by intros j key ?.
  - destruct (params !! i) as [v|] eqn:Hi; [|done].
    apply NoDup_cons in Hnd as [Hkey Hnd].
    intros [|j] k Hk; simpl in Hk.
    + injection Hk as <-. exists v. rewrite Nat.add_0_r. split; [done|].
      rewrite (fill_res_dict_other _ _ _ _ _ _ Hfill Hkey), get_set.
      by rewrite decide_True.
    + replace (i + S j) with (S i + j) by lia. by eapply IH.
Qed.

(** *** Runs without a filter *)

Lemma grid_loop_lists parameters atn combinations :
  emitted (grid_loop parameters false atn None combinations) =
    (λ params, ItemList
       (if atn then str_obj (test_name_of params) :: params else params))
    <$> combinations ∧
  raised (grid_loop parameters false atn None combinations) = None.
Proof.
  induction combinations as [|c cs [IHe IHr]]; [done|].
  cbn [grid_loop emitted raised]. csimpl. by rewrite IHe.
Qed.

Lemma grid_loop_long parameters yd atn combinations :
  Forall (λ params, length parameters ≤ length params) combinations →
  length (emitted (grid_loop parameters yd atn None combinations)) =
    length combinations ∧
  raised (grid_loop parameters yd atn None combinations) = None.
Proof.
  induction 1 as [|c cs Hc Hcs [IHe IHr]]; [done|].
  cbn [grid_loop]. destruct yd.
  - destruct (fill_res_dict_long (keys parameters) 0 c []) as [d ->].
    { unfold keys. rewrite length_fmap. lia. }
    cbn [emitted raised length]. by rewrite IHe.
  - cbn [emitted raised length]. by rewrite IHe.
Qed.

Lemma itertools_product_long parameters :
  Forall (λ params, length params = length parameters ∧
                    Forall2 (λ v pool, v ∈ pool) params (values parameters))
    (itertools_product (values parameters)).
Proof.
  apply Forall_forall. intros c Hc%elem_of_itertools_product. split; [|done].
  apply Forall2_length in Hc. unfold values in Hc.
  by rewrite length_fmap in Hc.
Qed.
End grid_facts.

(** ** The generated grid *)

Section grid_claims.
Context {V : Type} `{PyValue V}.
Implicit Types (parameters : dict string (list V)).
Implicit Types (params : list V) (combinations : list (list V)).

(** C1: without a filter function, whatever the flags, the generator ends
    normally after emitting as many items as the product of the sizes of the
    value lists; the items emitted as plain lists are the combinations of
    [itertools.product], and each of these has one value per parameter, the
    value at a position taken from the list of the parameter at that
    position (key order). *)
Theorem grid_parameters_count parameters (yield_dict add_test_name : bool) :
  let g := grid_parameters parameters yield_dict add_test_name None in
  raised g = None ∧
  length (emitted g) = foldr Nat.mul 1 (sizes parameters) ∧
  emitted (grid_parameters parameters false false None) =
    ItemList <$> itertools_product (values parameters) ∧
  Forall (λ params, length params = length parameters ∧
                    Forall2 (λ v pool, v ∈ pool) params (values parameters))
    (itertools_product (values parameters)).
Proof.
  pose proof (itertools_product_long parameters) as Hlong.
  unfold grid_parameters. split_and!; [| | |done].
  - apply grid_loop_long. eapply Forall_impl; [exact Hlong|].
    intros c [-> _]. done.
  - destruct (grid_loop_long parameters yield_dict add_test_name
                (itertools_product (values parameters))) as [-> _].
    + eapply Forall_impl; [exact Hlong|]. intros c [-> _]. done.
    + apply length_itertools_product.
  - apply grid_loop_lists.
Qed.

(** C5: a filter that returns [None] for every combination leaves nothing
    to emit; for any filter, the run is the run without a filter over the
    combinations the filter did not answer [None] for, as rewritten, so a
    dropped combination shows nowhere in the output. *)
Theorem grid_filter_none parameters (yield_dict add_test_name : bool) :
  grid_parameters parameters yield_dict add_test_name (Some (λ _, None)) = Stop ∧
  ∀ f,
    grid_parameters parameters yield_dict add_test_name (Some f) =
      grid_loop parameters yield_dict add_test_name None
        (omap f (itertools_product (values parameters))) ∧
    emitted (grid_parameters parameters false false (Some f)) =
      ItemList <$> omap f (itertools_product (values parameters)).
Proof.
  unfold grid_parameters. split.
  - induction (itertools_product (values parameters)) as [|c cs IH]; done.
  - intros f. rewrite (grid_loop_surviving _ _ _ (Some f)). split; [done|].
    rewrite (grid_loop_surviving _ _ _ (Some f)). apply grid_loop_lists.
Qed.

(** C6: the identity as filter changes nothing. *)
Theorem grid_identity_filter parameters (yield_dict add_test_name : bool) :
  grid_parameters parameters yield_dict add_test_name (Some Some) =
  grid_parameters parameters yield_dict add_test_name None.
Proof.
  unfold grid_parameters.
  induction (itertools_product (values parameters)) as [|c cs IH]; [done|].
  cbn [grid_loop]. by rewrite IH.
Qed.

(** C7: one empty value list and nothing is emitted. *)
Theorem grid_empty_pool parameters (yield_dict add_test_name : bool)
    filter_params_func :
  [] ∈ values parameters →
  grid_parameters parameters yield_dict add_test_name filter_params_func = Stop.
Proof.
  intros Hempty. unfold grid_parameters.
  by rewrite itertools_product_empty_pool.
Qed.

(** The filter is consulted on the combinations of the grid and nowhere
    else: two filters that agree there give the same generator. *)
Lemma grid_filter_agree parameters (yield_dict add_test_name : bool)
    (f g : list V → option (list V)) :
  Forall (λ params, f params = g params)
    (itertools_product (values parameters)) →
  grid_parameters parameters yield_dict add_test_name (Some f) =
  grid_parameters parameters yield_dict add_test_name (Some g).
Proof.
  unfold grid_parameters.
  induction 1 as [|c cs Hc Hcs IH]; [done|].
  cbn [grid_loop]. by rewrite Hc, IH.
Qed.

(** C10: a filter that answers the empty sequence drops nothing.  As lists,
    every combination is emitted, as the list holding the empty name alone
    or as the empty list; as mappings, with a parameter and a combination
    to go through, the first lookup [params[0]] raises [IndexError]. *)
Theorem grid_empty_rewrite parameters (add_test_name : bool) :
  let f := Some (λ _ : list V, Some []) in
  emitted (grid_parameters parameters false add_test_name f) =
    replicate (foldr Nat.mul 1 (sizes parameters))
      (ItemList (if add_test_name then [str_obj ""] else [])) ∧
  raised (grid_parameters parameters false add_test_name f) = None ∧
  (parameters ≠ [] → [] ∉ values parameters →
   grid_parameters parameters true add_test_name f = Raise IndexError).
Proof.
  unfold grid_parameters, sizes. rewrite <-length_itertools_product.
  split_and!.
  - induction (itertools_product (values parameters)) as [|c cs IH]; [done|].
    cbn [grid_loop emitted length replicate]. by rewrite IH.
  - induction (itertools_product (values parameters)) as [|c cs IH]; done.
  - intros Hp Hpools.
    destruct (itertools_product_nonempty _ Hpools) as (c & rest & ->).
    destruct parameters as [|[key pool] parameters]; done.
Qed.
End grid_claims.

(** C4: the example of the specification, item by item. *)
Theorem grid_example_ab :
  grid_parameters ab_space false true None =
    Yield (ItemList [VStr "1_x"; VInt 1; VStr "x"])
   (Yield (ItemList [VStr "1_y"; VInt 1; VStr "y"])
   (Yield (ItemList [VStr "2_x"; VInt 2; VStr "x"])
   (Yield (ItemList [VStr "2_y"; VInt 2; VStr "y"]) Stop))).
Proof. vm_compute. reflexivity. Qed.

Section grid_entries.
Context {V : Type} `{PyValue V}.
Implicit Types (parameters : dict string (list V)).

(** C2, amended: with [yield_dict=True], every emitted mapping holds, under
    every parameter key, the value in that key's slot of its combination:
    the combination of [itertools.product], or what the filter made of it.
    This needs that no parameter is called [test_name] when
    [add_test_name=True]. *)
Theorem grid_dict_slots parameters (add_test_name : bool) filter_params_func :
  NoDup (keys parameters) →
  (add_test_name = true → "test_name" ∉ keys parameters) →
  dict_holds_slots parameters add_test_name filter_params_func ∧
  surviving None (itertools_product (values parameters)) =
    itertools_product (values parameters).
Proof.
  intros Hnd Hname. split; [|apply surviving_None].
  unfold dict_holds_slots, grid_parameters. rewrite grid_loop_surviving.
  induction (surviving filter_params_func
               (itertools_product (values parameters))) as [|c cs IH];
    intros i it Hi; [done|].
  cbn [grid_loop] in Hi.
  destruct (fill_res_dict 0 (keys parameters) c []) as [e|d] eqn:Hfill;
    [done|].
  destruct i as [|i]; [|by apply IH].
  injection Hi as <-. eexists c, _. split_and!; [done..|].
  intros j key Hkey.
  destruct (fill_res_dict_slots _ _ _ _ _ Hfill Hnd j key Hkey)
    as (v & Hv & Hget).
  exists v. split; [done|]. destruct add_test_name; [|done].
  rewrite get_set, decide_False; [done|].
  intros ->. apply Hname; [done|]. by eapply list_elem_of_lookup_2.
Qed.

(** C3, amended: [add_test_name=True] changes neither how many items are
    emitted nor how the run ends, and adds to every item one entry, the
    [str] object that joins with [_] the text of the values of the
    combination as the filter left it: put first in a list, put last under
    the key [test_name] in a mapping that does not have this key.  For
    mappings this needs that no parameter is called [test_name]. *)
Theorem grid_test_name_entry parameters (yield_dict : bool) filter_params_func :
  (yield_dict = true → "test_name" ∉ keys parameters) →
  adds_one_entry parameters yield_dict filter_params_func.
Proof.
  intros Hname. unfold adds_one_entry, grid_parameters.
  rewrite !(grid_loop_surviving _ _ _ filter_params_func).
  induction (surviving filter_params_func
               (itertools_product (values parameters))) as [|c cs IH];
    [done|].
  destruct IH as (IHr & IHl & IHe). cbn [grid_loop].
  destruct yield_dict.
  - destruct (fill_res_dict 0 (keys parameters) c []) as [e|d] eqn:Hfill;
      [done|].
    cbn [emitted raised length]. split_and!; [done|by rewrite IHl|].
    intros [|i] it Hi; [|by apply IHe].
    injection Hi as <-. eexists c, _. split_and!; [done..|].
    assert (get d "test_name" = None) as Hget.
    { by rewrite (fill_res_dict_other _ _ _ _ _ _ Hfill (Hname eq_refl)). }
    split; [done|]. f_equal. apply set_fresh. by apply get_None.
  - cbn [emitted raised length]. split_and!; [done|by rewrite IHl|].
    intros [|i] it Hi; [|by apply IHe].
    injection Hi as <-. by eexists c, _.
Qed.
End grid_entries.

(** C2 as stated fails: a parameter called [test_name] has its value
    replaced by the name, here the integer [1] by the text ["1"]. *)
Lemma grid_dict_slots_test_name_key :
  itertools_product (values name_space) = [[VInt 1]] ∧
  grid_parameters name_space true true None =
    Yield (ItemDict [("test_name", VStr "1")]) Stop ∧
  ¬ dict_holds_slots name_space true None.
Proof.
  split_and!; [by vm_compute..|]. intros Hc.
  destruct (Hc 0 (ItemDict [("test_name", VStr "1")]))
    as (params & res_dict & Hparams & Hit & Hslots); [by vm_compute|].
  vm_compute in Hparams. injection Hparams as <-. injection Hit as <-.
  destruct (Hslots 0 "test_name") as (v & Hv & Hget); [by vm_compute|].
  vm_compute in Hv, Hget. congruence.
Qed.

(** C3 as stated fails: with a parameter called [test_name] the mapping
    has one entry with the name and one entry without. *)
Lemma grid_test_name_overwrites :
  grid_parameters name_space true false None =
    Yield (ItemDict [("test_name", VInt 1)]) Stop ∧
  grid_parameters name_space true true None =
    Yield (ItemDict [("test_name", VStr "1")]) Stop ∧
  ¬ adds_one_entry name_space true None.
Proof.
  split_and!; [by vm_compute..|]. intros (_ & _ & Hc).
  destruct (Hc 0 (ItemDict [("test_name", VInt 1)]))
    as (params & it' & _ & _ & Hget & _); [by vm_compute|].
  vm_compute in Hget. discriminate.
Qed.

(** ** Flattening *)

Section flatten_facts.
Context {K L : Type} `{EqDecision K}.
Implicit Types (d : nested K L) (entries : list (K * node K L)).
Implicit Types (items : list (K * L)) (k : K) (x : L).

(** Induction on nested dictionaries, entry by entry. *)
Lemma nested_entries_ind (P : nested K L → Prop) :
  P (Nested []) →
  (∀ k x rest, P (Nested rest) → P (Nested ((k, Leaf x) :: rest))) →
  (∀ k d rest, P d → P (Nested rest) → P (Nested ((k, Mapping d) :: rest))) →
  ∀ d, P d.
Proof.
  intros Hnil Hleaf Hmap. fix IH 1. intros [entries].
  induction entries as [|[k [x|d]] rest IHrest].
  - exact Hnil.
  - by apply Hleaf.
  - apply Hmap; [apply IH | exact IHrest].
Qed.

Lemma flatten_dict_items entries :
  flatten_dict (Nested entries) = of_items (flatten_items entries).
Proof.
  simpl. f_equal. induction entries as [|[k [x|d]] rest IH]; simpl;
    by rewrite ?IH.
Qed.

Lemma leaves_leaf k x rest :
  leaves (Nested ((k, Leaf x) :: rest)) = (k, x) :: leaves (Nested rest).
Proof. done. Qed.

Lemma leaves_mapping k d rest :
  leaves (Nested ((k, Mapping d) :: rest)) = leaves d ++ leaves (Nested rest).
Proof. done. Qed.

(** *** The last value of a key *)

Lemma last_value_app k items1 items2 :
  last_value k (items1 ++ items2) =
  match last_value k items2 with
  | Some w => Some w
  | None => last_value k items1
  end.
Proof.
  induction items1 as [|[k' v] items1 IH]; simpl.
  - by destruct (last_value k items2).
  - rewrite IH. by destruct (last_value k items2).
Qed.

Lemma get_foldl_set items : ∀ (acc : dict K L) k,
  get (foldl (λ res kv, set res kv.1 kv.2) acc items) k =
  match last_value k items with
  | Some w => Some w
  | None => get acc k
  end.
Proof.
  induction items as [|[k' v] items IH]; intros acc k; simpl; [done|].
  rewrite IH, get_set.
  destruct (last_value k items); [done|]. by destruct (decide (k = k')).
Qed.

Lemma get_of_items items k : get (of_items items) k = last_value k items.
Proof.
  unfold of_items. rewrite get_foldl_set. by destruct (last_value k items).
Qed.

(** In a dictionary a key occurs once, so its last value is its value. *)
Lemma last_value_dict (dict : dict K L) k :
  NoDup (keys dict) → last_value k dict = get dict k.
Proof.
  unfold keys. induction dict as [|[k' v] dict IH]; csimpl; [done|].
  intros [Hk' Hnd]%NoDup_cons. rewrite (IH Hnd).
  destruct (decide (k = k')) as [->|Hne].
  - apply get_None in Hk'. by rewrite Hk'.
  - by destruct (get dict k).
Qed.

Lemma last_value_Some k x items : last_value k items = Some x → (k, x) ∈ items.
Proof.
  induction items as [|[k' v] items IH]; simpl; [done|].
  destruct (last_value k items) as [w|].
  - intros [= ->]. right. by apply IH.
  - destruct (decide (k = k')) as [->|]; [|done]. intros [= ->]. by left.
Qed.

Lemma last_value_None k items :
  last_value k items = None ↔ ∀ x, (k, x) ∉ items.
Proof.
  induction items as [|[k' v] items IH]; simpl.
  - split; [intros _ x; apply not_elem_of_nil | done].
  - destruct (last_value k items) as [w|] eqn:Hlast.
    + split; [done|]. intros Hnone.
      apply last_value_Some in Hlast. destruct (Hnone w). by right.
    + destruct IH as [IH _]. specialize (IH eq_refl).
      destruct (decide (k = k')) as [->|Hne].
      * split; [done|]. intros Hnone. destruct (Hnone v). by left.
      * split; [|done]. intros _ x [[= -> ->]|Hin]%elem_of_cons; [done|].
        by apply (IH x).
Qed.

(** *** Leaves *)

Lemma leaf_at_cons entry entries k x :
  leaf_at (Nested entries) k x → leaf_at (Nested (entry :: entries)) k x.
Proof.
  inversion 1; subst.
  - apply leaf_here. by right.
  - eapply leaf_below; [|done]. by right.
Qed.

Lemma leaves_leaf_at : ∀ d k x, (k, x) ∈ leaves d ↔ leaf_at d k x.
Proof.
  induction d as [|k0 x0 rest IH|k0 d rest IHd IH] using nested_entries_ind;
    intros k x.
  - split; [by intros ?%elem_of_nil|].
    inversion 1 as [? ? ? Hin|? ? ? ? ? Hin]; by apply elem_of_nil in Hin.
  - rewrite leaves_leaf, elem_of_cons, IH. split.
    + intros [[= -> ->]|Hrest]; [apply leaf_here; by left|].
      by apply leaf_at_cons.
    + inversion 1 as [? ? ? Hin|? ? sub ? ? Hin Hsub]; subst.
      * apply elem_of_cons in Hin as [[= -> ->]|Hin]; [by left|].
        right. by apply leaf_here.
      * apply elem_of_cons in Hin as [[=]|Hin].
        right. by eapply leaf_below.
  - rewrite leaves_mapping, elem_of_app, IHd, IH. split.
    + intros [Hd|Hrest]; [|by apply leaf_at_cons].
      eapply leaf_below; [|done]. by left.
    + inversion 1 as [? ? ? Hin|? ? sub ? ? Hin Hsub]; subst.
      * apply elem_of_cons in Hin as [[=]|Hin].
        right. by apply leaf_here.
      * apply elem_of_cons in Hin as [[= -> ->]|Hin]; [by left|].
        right. by eapply leaf_below.
Qed.

Lemma flatten_items_last_value : ∀ d k,
  get (flatten_dict d) k = last_value k (leaves d).
Proof.
  induction d as [|k0 x0 rest IH|k0 d rest IHd IH] using nested_entries_ind;
    intros k.
  - done.
  - specialize (IH k). rewrite flatten_dict_items, get_of_items in IH.
    rewrite flatten_dict_items, get_of_items, leaves_leaf.
    simpl. by rewrite IH.
  - specialize (IH k). rewrite flatten_dict_items, get_of_items in IH.
    rewrite flatten_dict_items, get_of_items, leaves_mapping.
    cbn [flatten_items flat_map snd]. fold (flatten_items rest).
    rewrite !last_value_app, IH.
    destruct (last_value k (leaves (Nested rest))); [done|].
    rewrite last_value_dict, IHd; [done|].
    destruct d as [entries]. rewrite flatten_dict_items.
    apply NoDup_keys_of_items.
Qed.

(** C9: the flat dictionary has as keys the keys under which, at any depth,
    a value that is not a mapping sits, unchanged and each once; a key under
    which only mappings sit is not among them; and the value of a key is
    the one met last, in iteration order, among the leaves with that key. *)
Theorem flatten_dict_leaves (dictionary : nested K L) (k : K) :
  NoDup (keys (flatten_dict dictionary)) ∧
  (k ∈ keys (flatten_dict dictionary) ↔ ∃ x, leaf_at dictionary k x) ∧
  (get (flatten_dict dictionary) k = None ↔ ∀ x, ¬ leaf_at dictionary k x) ∧
  get (flatten_dict dictionary) k = last_value k (leaves dictionary) ∧
  (∀ x, (k, x) ∈ leaves dictionary ↔ leaf_at dictionary k x).
Proof.
  assert (k ∈ keys (flatten_dict dictionary) ↔ ∃ x, leaf_at dictionary k x)
    as Hkeys.
  { rewrite <-get_is_Some, flatten_items_last_value. split.
    - intros [x Hx%last_value_Some%leaves_leaf_at]. eauto.
    - intros [x Hx%leaves_leaf_at].
      apply not_eq_None_Some. intros Hnone.
      by apply (proj1 (last_value_None _ _) Hnone x). }
  split_and!.
  - destruct dictionary as [entries]. rewrite flatten_dict_items.
    apply NoDup_keys_of_items.
  - exact Hkeys.
  - rewrite get_None, Hkeys. split.
    + intros Hnone x Hx. apply Hnone. by exists x.
    + intros Hnone [x Hx]. by apply (Hnone x).
  - apply flatten_items_last_value.
  - intros x. apply leaves_leaf_at.
Qed.
End flatten_facts.

(** The keys [a] and [c] hold mappings and are gone; [b] keeps the value met
    last. *)
Example flatten_dict_nested_example :
  flatten_dict nested_example = [("b", 3%Z); ("d", 4%Z)].
Proof. reflexivity. Qed.

(** ** The statements at concrete grids *)

Lemma grid_dict_slots_ab :
  NoDup (keys ab_space) ∧ dict_holds_slots ab_space true (Some keep_pairs).
Proof.
  assert (NoDup (keys ab_space)) as Hnd by compute_done.
  split; [done|].
  apply (grid_dict_slots ab_space true (Some keep_pairs)); [done|].
  intros _. compute_done.
Defined.

Lemma grid_test_name_entry_ab :
  ("test_name" ∉ keys ab_space) ∧ adds_one_entry ab_space true (Some keep_pairs).
Proof.
  assert ("test_name" ∉ keys ab_space) as Hname by compute_done.
  split; [done|].
  by apply (grid_test_name_entry ab_space true (Some keep_pairs)).
Defined.

Lemma grid_empty_pool_hollow :
  [] ∈ values hollow_space ∧
  grid_parameters hollow_space true true (Some keep_pairs) = Stop.
Proof.
  assert ([] ∈ values hollow_space) as Hempty by compute_done.
  split; [done|].
  by apply (grid_empty_pool hollow_space true true (Some keep_pairs)).
Defined.

Lemma grid_empty_rewrite_ab :
  ab_space ≠ [] ∧ ([] ∉ values ab_space) ∧
  grid_parameters ab_space true true (Some (λ _, Some [])) = Raise IndexError.
Proof.
  assert ([] ∉ values ab_space) as Hpools by compute_done.
  split_and!; [done..|].
  by apply (grid_empty_rewrite ab_space true).
Defined.

(** ** More about the grid: order, bounds and [IndexError] *)

Section product_order.
Context {A : Type}.
Implicit Types (pool : list A) (pools result : list (list A)).

Lemma product_step_app result1 result2 pool :
  product_step (result1 ++ result2) pool =
  product_step result1 pool ++ product_step result2 pool.
Proof. unfold product_step. apply bind_app. Qed.

Lemma product_step_prefix (x : list A) result pool :
  product_step ((x ++.) <$> result) pool = (x ++.) <$> product_step result pool.
Proof.
  unfold product_step. induction result as [|r result IH]; csimpl; [done|].
  rewrite IH, fmap_app. f_equal.
  rewrite <-list_fmap_compose. apply list_fmap_ext. intros _ y _. simpl.
  by rewrite app_assoc.
Qed.

Lemma product_step_bind result (suffixes : list (list A)) pool :
  product_step (x ← result; (x ++.) <$> suffixes) pool =
  x ← result; (x ++.) <$> product_step suffixes pool.
Proof.
  induction result as [|r result IH]; csimpl; [done|].
  by rewrite product_step_app, product_step_prefix, IH.
Qed.

Lemma foldl_product_step_prefix pools : ∀ result,
  foldl product_step result pools =
  x ← result; (x ++.) <$> itertools_product pools.
Proof.
  unfold itertools_product.
  induction pools as [|pool pools IH] using rev_ind; intros result.
  - simpl. induction result as [|r result IHr]; csimpl; [done|].
    by rewrite app_nil_r, <-IHr.
  - rewrite !foldl_app. simpl. by rewrite IH, product_step_bind.
Qed.

(** The first pool varies slowest. *)
Lemma itertools_product_cons pool pools :
  itertools_product (pool :: pools) =
  y ← pool; (y ::.) <$> itertools_product pools.
Proof.
  unfold itertools_product at 1. simpl. rewrite foldl_product_step_prefix.
  unfold product_step. csimpl. rewrite app_nil_r.
  induction pool as [|y pool IH]; csimpl; [done|]. by rewrite IH.
Qed.

Lemma NoDup_itertools_product pools :
  Forall NoDup pools → NoDup (itertools_product pools).
Proof.
  induction 1 as [|pool pools Hpool Hpools IH].
  - apply NoDup_singleton.
  - rewrite itertools_product_cons. apply NoDup_bind; [| |done].
    + by intros y1 y2 c _ _ (c1 & -> & _)%list_elem_of_fmap
        (c2 & [= -> _] & _)%list_elem_of_fmap.
    + intros y _. apply NoDup_fmap_2; [|done]. by intros c1 c2 [= ->].
Qed.
End product_order.

Section grid_more.
Context {V : Type} `{PyValue V}.
Implicit Types (parameters : dict string (list V)).
Implicit Types (params : list V) (combinations : list (list V)).
Implicit Types (res_dict acc : dict string V).

Lemma fill_res_dict_short ks : ∀ i params acc,
  i ≤ length params → length params < i + length ks →
  fill_res_dict i ks params acc = inl IndexError.
Proof.
  induction ks as [|key ks IH]; intros i params acc Hi Hlen; simpl in *.
  - lia.
  - destruct (params !! i) as [v|] eqn:Hv; [|done].
    apply lookup_lt_Some in Hv. apply IH; lia.
Qed.

Lemma fill_res_dict_zip ks : ∀ i params acc,
  i + length ks ≤ length params →
  NoDup ks → (∀ k, k ∈ ks → k ∉ keys acc) →
  fill_res_dict i ks params acc = inr (acc ++ zip ks (drop i params)).
Proof.
  induction ks as [|key ks IH]; intros i params acc Hlen Hnd Hfresh;
    simpl in *.
  - by rewrite app_nil_r.
  - destruct (lookup_lt_is_Some_2 params i) as [v Hv]; [lia|].
    rewrite Hv, (drop_S _ _ _ Hv). simpl.
    apply NoDup_cons in Hnd as [Hkey Hnd].
    rewrite set_fresh by (apply Hfresh; by left).
    rewrite IH; [by rewrite <-app_assoc|lia|done|].
    intros k Hk. unfold keys. rewrite fmap_app, elem_of_app. simpl.
    intros [Hin| ->%list_elem_of_singleton]; [|done].
    by apply (Hfresh k); [right|].
Qed.

Lemma fill_res_dict_take ks : ∀ i n params acc,
  i + length ks ≤ n →
  fill_res_dict i ks (take n params) acc = fill_res_dict i ks params acc.
Proof.
  induction ks as [|key ks IH]; intros i n params acc Hn; simpl in *; [done|].
  rewrite lookup_take_lt by lia.
  destruct (params !! i); [|done]. apply IH. lia.
Qed.

(** With [yield_dict=False] the generator never raises, whatever the filter
    answers: it emits one list for every answer that is not [None], the
    answer itself with the name in front if asked for. *)
Theorem grid_lists_never_raise parameters (add_test_name : bool)
    filter_params_func :
  raised (grid_parameters parameters false add_test_name filter_params_func)
    = None ∧
  emitted (grid_parameters parameters false add_test_name filter_params_func)
    = (λ params, ItemList (if add_test_name
                            then str_obj (test_name_of params) :: params
                            else params))
      <$> surviving filter_params_func (itertools_product (values parameters)).
Proof.
  unfold grid_parameters. rewrite grid_loop_surviving.
  split; apply grid_loop_lists.
Qed.

(** No filter makes the grid larger: at most as many items as the product
    of the sizes are emitted. *)
Theorem grid_emitted_bound parameters (yield_dict add_test_name : bool)
    filter_params_func :
  length (emitted (grid_parameters parameters yield_dict add_test_name
                     filter_params_func))
  ≤ foldr Nat.mul 1 (sizes parameters).
Proof.
  unfold grid_parameters, sizes. rewrite <-length_itertools_product.
  induction (itertools_product (values parameters)) as [|c cs IH]; [done|].
  cbn [grid_loop length].
  destruct (match filter_params_func with
            | Some f => f c
            | None => Some c
            end) as [c'|]; [|lia].
  destruct yield_dict.
  - destruct (fill_res_dict 0 (keys parameters) c' []); simpl; lia.
  - simpl. lia.
Qed.

(** With [yield_dict=True] the run ends normally exactly when every answer
    of the filter has at least as many values as there are parameters. *)
Theorem grid_dict_raises_iff parameters (add_test_name : bool)
    filter_params_func :
  raised (grid_parameters parameters true add_test_name filter_params_func)
    = None ↔
  Forall (λ params, length parameters ≤ length params)
    (surviving filter_params_func (itertools_product (values parameters))).
Proof.
  unfold grid_parameters. rewrite grid_loop_surviving.
  induction (surviving filter_params_func
               (itertools_product (values parameters))) as [|c cs IH].
  - split; [constructor|done].
  - rewrite Forall_cons. cbn [grid_loop].
    destruct (decide (length parameters ≤ length c)) as [Hlong|Hshort].
    + destruct (fill_res_dict_long (keys parameters) 0 c []) as [d ->].
      { unfold keys. rewrite length_fmap. lia. }
      cbn [raised]. rewrite IH. by split; [|intros [_ ?]].
    + rewrite fill_res_dict_short; [|lia|unfold keys; rewrite length_fmap; lia].
      by split; [|intros [? _]].
Qed.

(** The first answer that is too short ends the run with [IndexError]: what
    came before it has been emitted, nothing of what comes after is. *)
Theorem grid_dict_raises_at parameters (add_test_name : bool)
    filter_params_func (before : list (list V)) params after :
  surviving filter_params_func (itertools_product (values parameters))
    = before ++ params :: after →
  Forall (λ params, length parameters ≤ length params) before →
  length params < length parameters →
  let g :=
    grid_parameters parameters true add_test_name filter_params_func in
  raised g = Some IndexError ∧
  length (emitted g) = length before ∧
  emitted g = emitted (grid_loop parameters true add_test_name None before).
Proof.
  intros Hsurv Hbefore Hshort. unfold grid_parameters.
  rewrite grid_loop_surviving, Hsurv. clear Hsurv.
  induction Hbefore as [|c cs Hc Hcs IH]; cbn [app grid_loop].
  - rewrite fill_res_dict_short; [done|lia|].
    unfold keys. rewrite length_fmap. lia.
  - destruct (fill_res_dict_long (keys parameters) 0 c []) as [d ->].
    { unfold keys. rewrite length_fmap. lia. }
    destruct IH as (IHr & IHl & IHe). cbn [raised emitted length].
    by rewrite IHl, IHe.
Qed.

(** With distinct parameter names, none of them [test_name], and answers
    long enough, the emitted mapping is the parameter names, in their
    order, paired with the leading values of the answer, followed by the
    name if asked for; values beyond the last parameter are left out. *)
Theorem grid_dict_exact parameters (add_test_name : bool) filter_params_func :
  NoDup (keys parameters) →
  (add_test_name = true → "test_name" ∉ keys parameters) →
  Forall (λ params, length parameters ≤ length params)
    (surviving filter_params_func (itertools_product (values parameters))) →
  emitted (grid_parameters parameters true add_test_name filter_params_func)
    = (λ params,
         ItemDict (zip (keys parameters) params ++
                   if add_test_name
                   then [("test_name", str_obj (test_name_of params))]
                   else []))
      <$> surviving filter_params_func (itertools_product (values parameters)).
Proof.
  intros Hnd Hname. unfold grid_parameters. rewrite grid_loop_surviving.
  induction 1 as [|c cs Hc Hcs IH]; [done|].
  cbn [grid_loop]. rewrite fill_res_dict_zip; [|by unfold keys;
    rewrite length_fmap|done|by intros k _; apply not_elem_of_nil].
  rewrite drop_0. csimpl. rewrite IH. do 2 f_equal.
  destruct add_test_name; [|by rewrite app_nil_r].
  apply set_fresh. unfold keys at 1. rewrite fst_zip.
  - by apply Hname.
  - unfold keys. rewrite length_fmap. lia.
Qed.

(** With [yield_dict=True] and no name, only the first values of an answer
    count, as many as there are parameters: cutting every answer there
    changes nothing, neither in the items nor in where the run ends. *)
Theorem grid_dict_surplus parameters (f : list V → option (list V)) :
  grid_parameters parameters true false (Some f) =
  grid_parameters parameters true false
    (Some (λ params, take (length parameters) <$> f params)).
Proof.
  unfold grid_parameters.
  induction (itertools_product (values parameters)) as [|c cs IH]; [done|].
  cbn [grid_loop]. rewrite <-IH.
  destruct (f c) as [c'|]; [|done]. cbn [fmap option_fmap option_map].
  rewrite fill_res_dict_take; [done|].
  unfold keys. rewrite length_fmap. lia.
Qed.

(** The first parameter varies slowest: the plain lists come grouped by its
    values, in their order, and every group runs through the combinations
    of the other parameters. *)
Theorem grid_first_parameter_slowest (key : string) (pool : list V) parameters :
  emitted (grid_parameters ((key, pool) :: parameters) false false None) =
  y ← pool;
  (λ params, ItemList (y :: params)) <$> itertools_product (values parameters).
Proof.
  destruct (grid_loop_lists ((key, pool) :: parameters) false
              (itertools_product (values ((key, pool) :: parameters))))
    as [Hemit _].
  unfold grid_parameters. rewrite Hemit. clear Hemit.
  unfold values. csimpl. rewrite itertools_product_cons.
  induction pool as [|y pool IH]; csimpl; [done|].
  by rewrite fmap_app, IH, <-list_fmap_compose.
Qed.

(** Parameters whose values are pairwise distinct give pairwise distinct
    lists: no test case is generated twice. *)
Theorem grid_lists_distinct parameters (add_test_name : bool) :
  Forall NoDup (values parameters) →
  NoDup (emitted (grid_parameters parameters false add_test_name None)).
Proof.
  intros Hpools.
  destruct (grid_loop_lists parameters add_test_name
              (itertools_product (values parameters))) as [Hemit _].
  unfold grid_parameters. rewrite Hemit.
  apply NoDup_fmap_2_strong; [|by apply NoDup_itertools_product].
  intros c1 c2 _ _. destruct add_test_name; [by intros [= _ ->]|].
  by intros [= ->].
Qed.
End grid_more.

(** ** More about [dict(items)] and [flatten_dict] *)

Section dict_more.
Context {K V : Type} `{EqDecision K}.
Implicit Types (d acc : dict K V) (items : list (K * V)) (k key : K) (v w : V).

Lemma keys_set_elem d key v k : k ∈ keys (set d key v) ↔ k = key ∨ k ∈ keys d.
Proof.
  rewrite <-!get_is_Some, get_set.
  destruct (decide (k = key)) as [->|Hne].
  - split; [by left|by eexists].
  - split; [by right|by intros [?|?]].
Qed.

Lemma set_set d key v w : set (set d key w) key v = set d key v.
Proof.
  induction d as [|[k0 x] d IH]; simpl.
  - by rewrite decide_True.
  - destruct (decide (key = k0)) as [->|Hne]; simpl.
    + by rewrite decide_True.
    + by rewrite decide_False, IH.
Qed.

(** Assignments to different keys commute when the later one meets a key
    that is there already. *)
Lemma set_comm_present d k v key w :
  k ∈ keys d → k ≠ key → set (set d key w) k v = set (set d k v) key w.
Proof.
  unfold keys. induction d as [|[k0 x] d IH]; csimpl.
  - by intros ?%elem_of_nil.
  - intros Hin Hne. destruct (decide (key = k0)) as [->|Hkey]; simpl.
    + rewrite !decide_False by done. simpl. by rewrite decide_True.
    + destruct (decide (k = k0)) as [->|Hk]; simpl.
      * by rewrite decide_False.
      * rewrite decide_False by done. f_equal. apply IH; [|done].
        by apply elem_of_cons in Hin as [?|?].
Qed.

Lemma foldl_set_present items : ∀ d k v,
  k ∈ keys d → k ∉ keys items →
  set (foldl (λ res kv, set res kv.1 kv.2) d items) k v =
  foldl (λ res kv, set res kv.1 kv.2) (set d k v) items.
Proof.
  induction items as [|[k1 w1] items IH]; intros d k v Hin Hnin; [done|].
  unfold keys in Hnin. csimpl in *.
  apply not_elem_of_cons in Hnin as [Hne Hnin].
  rewrite IH; [|apply keys_set_elem; by right|done].
  by rewrite set_comm_present.
Qed.

Lemma foldl_set_set d : ∀ acc key v,
  NoDup (keys d) →
  foldl (λ res kv, set res kv.1 kv.2) acc (set d key v) =
  set (foldl (λ res kv, set res kv.1 kv.2) acc d) key v.
Proof.
  unfold keys. induction d as [|[k0 x] d IH]; intros acc key v Hnd; csimpl;
    [done|].
  apply NoDup_cons in Hnd as [Hk0 Hnd].
  destruct (decide (key = k0)) as [->|Hne]; csimpl.
  - rewrite foldl_set_present; [|apply keys_set_elem; by left|done].
    by rewrite set_set.
  - by apply IH.
Qed.

(** Going through [dict(items)] first changes nothing for the assignments
    that follow. *)
Lemma of_items_absorb items : ∀ acc,
  foldl (λ res kv, set res kv.1 kv.2) acc (of_items items) =
  foldl (λ res kv, set res kv.1 kv.2) acc items.
Proof.
  unfold of_items.
  induction items as [|[k v] items IH] using rev_ind; intros acc; [done|].
  rewrite !foldl_app. simpl. rewrite foldl_set_set, IH; [done|].
  apply NoDup_keys_of_items.
Qed.

Lemma foldl_set_fresh items : ∀ acc,
  NoDup (keys (acc ++ items)) →
  foldl (λ res kv, set res kv.1 kv.2) acc items = acc ++ items.
Proof.
  induction items as [|[k v] items IH]; intros acc Hnd; simpl.
  - by rewrite app_nil_r.
  - replace (acc ++ (k, v) :: items) with ((acc ++ [(k, v)]) ++ items) in *
      by by rewrite <-app_assoc.
    rewrite set_fresh; [by apply IH|].
    unfold keys in *. rewrite !fmap_app in Hnd.
    apply NoDup_app in Hnd as [Hnd _]. apply NoDup_app in Hnd as (_ & Hk & _).
    intros Hin. apply (Hk k Hin). by left.
Qed.

(** [dict(items)] of pairs with distinct keys is these pairs. *)
Lemma of_items_NoDup items : NoDup (keys items) → of_items items = items.
Proof. intros Hnd. by apply (foldl_set_fresh items []). Qed.
End dict_more.

Section flatten_more.
Context {K L : Type} `{EqDecision K}.
Implicit Types (d : nested K L) (entries : list (K * node K L)).
Implicit Types (items : list (K * L)) (k : K) (x : L).

Lemma of_items_idemp items : of_items (of_items items) = of_items items.
Proof. unfold of_items at 1. apply of_items_absorb. Qed.

Lemma of_items_app_congr items1 items2 items1' items2' :
  of_items items1 = of_items items1' → of_items items2 = of_items items2' →
  of_items (items1 ++ items2) = of_items (items1' ++ items2').
Proof.
  intros H1 H2. unfold of_items. rewrite !foldl_app.
  fold (of_items items1). fold (of_items items1'). rewrite H1.
  by rewrite <-(of_items_absorb items2), H2, of_items_absorb.
Qed.

Lemma leaves_flat (dict : dict K L) : leaves (flat dict) = dict.
Proof.
  unfold flat. induction dict as [|[k x] dict IH]; [done|].
  rewrite fmap_cons. cbn [prod_map fst snd id].
  rewrite leaves_leaf. by f_equal.
Qed.

(** The flat dictionary is [dict(...)] of the pairs of a key and a value
    that is not a mapping, taken depth first in iteration order: a key
    stands where it is met first and holds the value met last. *)
Theorem flatten_dict_of_leaves : ∀ d, flatten_dict d = of_items (leaves d).
Proof.
  induction d as [|k0 x0 rest IH|k0 d rest IHd IH] using nested_entries_ind.
  - done.
  - rewrite flatten_dict_items in *. rewrite leaves_leaf.
    by apply (of_items_app_congr [(k0, x0)] _ [(k0, x0)]).
  - rewrite flatten_dict_items in *. rewrite leaves_mapping.
    cbn [flatten_items flat_map snd]. fold (flatten_items rest).
    apply of_items_app_congr; [|done].
    by rewrite IHd, of_items_idemp.
Qed.

(** When no key of a value that is not a mapping occurs twice, nothing is
    lost: the flat dictionary lists every such pair, in iteration order. *)
Theorem flatten_dict_lossless d :
  NoDup (keys (leaves d)) → flatten_dict d = leaves d.
Proof.
  intros Hnd. rewrite flatten_dict_of_leaves. by apply of_items_NoDup.
Qed.

(** A dictionary without nested mappings comes back as it is. *)
Theorem flatten_dict_flat (dict : dict K L) :
  NoDup (keys dict) → flatten_dict (flat dict) = dict.
Proof.
  intros Hnd. rewrite flatten_dict_of_leaves, leaves_flat.
  by apply of_items_NoDup.
Qed.

(** Flattening what has been flattened changes nothing. *)
Theorem flatten_dict_idempotent d :
  flatten_dict (flat (flatten_dict d)) = flatten_dict d.
Proof.
  rewrite (flatten_dict_of_leaves (flat _)), leaves_flat.
  rewrite flatten_dict_of_leaves. apply of_items_idemp.
Qed.
End flatten_more.

(** ** [is_ort_training_available] *)

Section ort_training.
Import OrtTraining.

(** [require_ort_training] keeps the test exactly when both lookups find a
    module and the configuration command exits with status zero.  It raises
    [UnboundLocalError] exactly when [onnxruntime.training] is found and
    [torch_ort] is not.  An exception of [find_spec] goes to the caller, and
    no command is run then.  The configuration command is run exactly when
    the first lookup returns and [torch_ort] is found, also when
    [onnxruntime.training] is not found; otherwise no command is run. *)
Theorem require_ort_training_outcomes {T} (w : world) (test_case : T) :
  let configure := [sys_executable w; "-m"; "torch_ort.configure"] in
  let result := require_ort_training w test_case in
  (result.2 = inr (Kept test_case) ↔
     find_spec w "onnxruntime.training" = Returns true ∧
     find_spec w "torch_ort" = Returns true ∧
     subprocess_run w configure = Completed) ∧
  (result.2 = inl UnboundLocalError ↔
     find_spec w "onnxruntime.training" = Returns true ∧
     find_spec w "torch_ort" = Returns false) ∧
  (∀ e, result.2 = inl (FindSpecRaised e) ↔
     find_spec w "onnxruntime.training" = LookupRaises e ∨
     (∃ found, find_spec w "onnxruntime.training" = Returns found) ∧
     find_spec w "torch_ort" = LookupRaises e) ∧
  (result.1 = [configure] ↔
     (∃ found, find_spec w "onnxruntime.training" = Returns found) ∧
     find_spec w "torch_ort" = Returns true) ∧
  (result.1 = [] ∨ result.1 = [configure]) ∧
  result.1 = (is_ort_training_available w).1.
Proof.
  unfold require_ort_training, is_ort_training_available, skipUnless.
  destruct (find_spec w "onnxruntime.training") as [[]|e1];
    destruct (find_spec w "torch_ort") as [[]|e2]; simpl;
    try destruct (subprocess_run w _); simpl;
    (split_and!; [..|done]);
    try (intros e); try (by left); try (by right);
    (split;
     [intros Hres;
      first [ solve [repeat split; eauto; congruence]
            | solve [left; congruence]
            | solve [right; split; [eauto|congruence]] ]
     |intros Hworld;
      repeat match goal with
             | Hc : _ ∧ _ |- _ => destruct Hc
             | Hc : _ ∨ _ |- _ => destruct Hc
             | Hc : ∃ _, _ |- _ => destruct Hc
             end; congruence]).
Qed.
End ort_training.

(** ** These statements at concrete inputs *)

Lemma grid_dict_raises_at_ab :
  grid_parameters ab_space true false (Some cut_2x) =
    Yield (ItemDict [("a", VInt 1); ("b", VStr "x")])
   (Yield (ItemDict [("a", VInt 1); ("b", VStr "y")])
   (Raise IndexError)) ∧
  raised (grid_parameters ab_space true false (Some cut_2x))
    = Some IndexError ∧
  length (emitted (grid_parameters ab_space true false (Some cut_2x))) = 2.
Proof.
  split; [by vm_compute|].
  destruct (grid_dict_raises_at ab_space false (Some cut_2x)
              [[VInt 1; VStr "x"]; [VInt 1; VStr "y"]]
              [VInt 2] [[VInt 2; VStr "y"]]) as (Hr & Hl & _);
    [by vm_compute|by repeat constructor|simpl; lia|done].
Defined.

Lemma grid_dict_exact_ab :
  emitted (grid_parameters ab_space true true (Some keep_pairs)) =
    (λ params,
       ItemDict (zip ["a"; "b"] params ++
                 [("test_name", VStr (test_name_of params))]))
    <$> itertools_product (values ab_space).
Proof.
  rewrite (grid_dict_exact ab_space true (Some keep_pairs)).
  - by vm_compute.
  - compute_done.
  - intros _. compute_done.
  - vm_compute. repeat constructor.
Defined.

Lemma grid_lists_distinct_ab :
  Forall NoDup (values ab_space) ∧
  NoDup (emitted (grid_parameters ab_space false true None)).
Proof.
  assert (Forall NoDup (values ab_space)) as Hpools by compute_done.
  split; [done|]. by apply (grid_lists_distinct ab_space true).
Defined.

Lemma flatten_dict_lossless_example :
  NoDup (keys (leaves nested_distinct)) ∧
  flatten_dict nested_distinct = [("b", 1%Z); ("d", 2%Z); ("e", 3%Z)].
Proof.
  assert (NoDup (keys (leaves nested_distinct))) as Hnd by compute_done.
  split; [done|]. by rewrite (flatten_dict_lossless nested_distinct).
Defined.

Lemma flatten_dict_flat_example :
  NoDup (keys flat_example) ∧ flatten_dict (flat flat_example) = flat_example.
Proof.
  assert (NoDup (keys flat_example)) as Hnd by compute_done.
  split; [done|]. by apply (flatten_dict_flat flat_example).
Defined.

(** onnxruntime-training without torch_ort: decorating a test raises, and
    no command has been run. *)
Example require_ort_training_unbound :
  OrtTraining.require_ort_training OrtTraining.training_only "test_case" =
    ([], inl OrtTraining.UnboundLocalError).
Proof. reflexivity. Qed.

(** torch_ort without the onnxruntime package: the first lookup raises, so
    torch_ort is not looked at and no command is run. *)
Example require_ort_training_no_onnxruntime :
  OrtTraining.require_ort_training OrtTraining.torch_ort_only "test_case" =
    ([], inl (OrtTraining.FindSpecRaised "ModuleNotFoundError")).
Proof. reflexivity. Qed.
